(** * Chained bezier segments: BezierSegmentState

    A shallow embedding of [src/state/BezierSegmentState.ts]: the segment
    object with its four point fields and its two neighbour links, the
    endpoint and control setters, and the previous/next linking protocol.

    Segments are JavaScript objects that refer to each other, so the model
    keeps them in a store indexed by object reference; every method takes the
    reference of [this] and the store, and returns the store after the call.

    The methods are generic in the vector type.  The general results hold
    for every implementation of the vector operations; concrete runs use
    vectors over the real numbers at inputs where binary64 arithmetic is
    exact too, and vectors of binary64 numbers where rounding decides. *)

From Stdlib Require Import PrimFloat.
From Stdlib Require Import Reals Lra ZArith Lia.
From stdpp Require Import base decidable option functions numbers list.

(** ** Vectors *)

(** Modelled from the spec: the vector utility ([util/Vec2], [util/Vec3]) is
    not among the sources.  The spec gives it value semantics and the
    operations [add], [sub], [mul] by a scalar, [normalize] and [length]
    (the Euclidean norm over 2 or 3 components).  The segment class is
    generic in [D extends Vec2 | Vec3]; the two classes below are that
    capability set: [add] and [sub], which the anchor and control methods
    use, and with them [mul], [normalize] and [length], which the direction
    methods use. *)
Class VectorAdd (D : Type) := {
  vadd : D -> D -> D;
  vsub : D -> D -> D
}.

Class Vector (D : Type) := {
  Vector_add :: VectorAdd D;
  vmul : D -> R -> D;
  vnormalize : D -> D;
  vlength : D -> R
}.

(** Modelled from the spec: the two vector types, by their coordinates, and
    their Euclidean norms. *)
Record Vec2 := mkVec2 { x2 : R; y2 : R }.
Record Vec3 := mkVec3 { x3 : R; y3 : R; z3 : R }.

Definition length2 (v : Vec2) : R := sqrt (x2 v * x2 v + y2 v * y2 v)%R.
Definition length3 (v : Vec3) : R :=
  sqrt (x3 v * x3 v + y3 v * y3 v + z3 v * z3 v)%R.

(** Modelled from the spec: [normalize] divides by the length; on a vector of
    length zero the division [_ / 0] of the reals yields the zero vector,
    which is the documented guard value. *)
#[export] Instance Vec2_VectorAdd : VectorAdd Vec2 := {|
  vadd a b := mkVec2 (x2 a + x2 b)%R (y2 a + y2 b)%R;
  vsub a b := mkVec2 (x2 a - x2 b)%R (y2 a - y2 b)%R
|}.

#[export] Instance Vec2_Vector : Vector Vec2 := {|
  Vector_add := Vec2_VectorAdd;
  vmul a k := mkVec2 (x2 a * k)%R (y2 a * k)%R;
  vnormalize a := mkVec2 (x2 a / length2 a)%R (y2 a / length2 a)%R;
  vlength := length2
|}.

(** Modelled from the spec: the same operations over three coordinates. *)
#[export] Instance Vec3_VectorAdd : VectorAdd Vec3 := {|
  vadd a b := mkVec3 (x3 a + x3 b)%R (y3 a + y3 b)%R (z3 a + z3 b)%R;
  vsub a b := mkVec3 (x3 a - x3 b)%R (y3 a - y3 b)%R (z3 a - z3 b)%R
|}.

#[export] Instance Vec3_Vector : Vector Vec3 := {|
  Vector_add := Vec3_VectorAdd;
  vmul a k := mkVec3 (x3 a * k)%R (y3 a * k)%R (z3 a * k)%R;
  vnormalize a :=
    mkVec3 (x3 a / length3 a)%R (y3 a / length3 a)%R (z3 a / length3 a)%R;
  vlength := length3
|}.

(** Modelled from the spec: a 2D vector of JavaScript numbers.  A number is
    an IEEE 754 binary64 value; [add] and [sub] work by coordinate and round
    to the nearest value, as the primitive operations on [float] do. *)
Record Vec2F := mkVec2F { xF : float; yF : float }.

#[export] Instance Vec2F_VectorAdd : VectorAdd Vec2F := {|
  vadd a b := mkVec2F (xF a + xF b)%float (yF a + yF b)%float;
  vsub a b := mkVec2F (xF a - xF b)%float (yF a - yF b)%float
|}.

(** ** Segments and the object store *)

(** Object references; [null] is [None] in a field of type [option ref]. *)
Definition ref := nat.

Section Segment.
Context {D : Type} `{VectorAdd D}.

(** The fields of [BezierSegmentState]; each [Field<T>] holds one value. *)
Record Segment := mkSegment {
  start : D;
  startControl : D;
  endControl : D;
  end_ : D;
  previous : option ref;
  next : option ref
}.

(** Every reference denotes an object. *)
Definition Store := ref -> Segment.

Definition with_start (v : D) (s : Segment) : Segment :=
  mkSegment v (startControl s) (endControl s) (end_ s) (previous s) (next s).
Definition with_startControl (v : D) (s : Segment) : Segment :=
  mkSegment (start s) v (endControl s) (end_ s) (previous s) (next s).
Definition with_endControl (v : D) (s : Segment) : Segment :=
  mkSegment (start s) (startControl s) v (end_ s) (previous s) (next s).
Definition with_end (v : D) (s : Segment) : Segment :=
  mkSegment (start s) (startControl s) (endControl s) v (previous s) (next s).
Definition with_previous (p : option ref) (s : Segment) : Segment :=
  mkSegment (start s) (startControl s) (endControl s) (end_ s) p (next s).
Definition with_next (n : option ref) (s : Segment) : Segment :=
  mkSegment (start s) (startControl s) (endControl s) (end_ s) (previous s) n.

(** [this.f.set(v)] for each field [f]. *)
Definition update (this : ref) (f : Segment -> Segment) (h : Store) : Store :=
  <[this := f (h this)]> h.

(** *** Constructor *)

(** The two overloads share one implementation; the last two arguments are
    optional, and an object is always truthy. *)
Definition constructor (start0 startControl0 : D) (endControl0 end0 : option D)
    : Segment :=
  match end0, endControl0 with
  | Some e, Some ec =>
      mkSegment start0 (vsub startControl0 start0) (vsub ec e) e None None
  | _, _ =>
      let e := startControl0 in
      mkSegment start0 start0 e e None None
  end.

(** *** Getters *)

Definition getPreviousSegment (h : Store) (this : ref) : option ref :=
  previous (h this).
Definition getNextSegment (h : Store) (this : ref) : option ref :=
  next (h this).
Definition getStart (h : Store) (this : ref) : D := start (h this).
Definition getEnd (h : Store) (this : ref) : D := end_ (h this).
Definition getStartControl (h : Store) (this : ref) : D :=
  startControl (h this).
Definition getEndControl (h : Store) (this : ref) : D := endControl (h this).
Definition getStartControlDelta (h : Store) (this : ref) : D :=
  vsub (startControl (h this)) (start (h this)).
Definition getEndControlDelta (h : Store) (this : ref) : D :=
  vsub (endControl (h this)) (end_ (h this)).

(** *** Setters *)

(** [setStart] and [setEnd] call each other on the neighbour, always with
    [sync = false], and a call with [sync = false] calls nothing.  The
    bodies take the neighbour's method as an argument; [setEnd_nosync] and
    [setStart_nosync] are the bodies at [sync = false]. *)
Definition setStart_body (call_setEnd : ref -> D -> Store -> Store)
    (this : ref) (vec : D) (sync : option bool) (h : Store) : Store :=
  let sync := default true sync in
  let h := update this (with_start vec) h in
  if sync then
    match previous (h this) with
    | Some prev => call_setEnd prev vec h
    | None => h
    end
  else h.

Definition setEnd_body (call_setStart : ref -> D -> Store -> Store)
    (this : ref) (vec : D) (sync : option bool) (h : Store) : Store :=
  let sync := default true sync in
  let h := update this (with_end vec) h in
  if sync then
    match next (h this) with
    | Some nxt => call_setStart nxt vec h
    | None => h
    end
  else h.

(** Stands for the call that a body does not make when [sync = false]. *)
Definition not_called {A : Type} : ref -> A -> Store -> Store :=
  fun _ _ h => h.

Definition setStart_nosync (this : ref) (vec : D) (h : Store) : Store :=
  setStart_body not_called this vec (Some false) h.
Definition setEnd_nosync (this : ref) (vec : D) (h : Store) : Store :=
  setEnd_body not_called this vec (Some false) h.

Definition setStart : ref -> D -> option bool -> Store -> Store :=
  setStart_body setEnd_nosync.
Definition setEnd : ref -> D -> option bool -> Store -> Store :=
  setEnd_body setStart_nosync.

Definition setStartControl (this : ref) (vec : D) (h : Store) : Store :=
  update this (with_startControl vec) h.
Definition setEndControl (this : ref) (vec : D) (h : Store) : Store :=
  update this (with_endControl vec) h.

Definition setStartControlDelta (this : ref) (vec : D) (h : Store) : Store :=
  update this (with_startControl (vsub vec (start (h this)))) h.
Definition setEndControlDelta (this : ref) (vec : D) (h : Store) : Store :=
  update this (with_endControl (vsub vec (end_ (h this)))) h.

Definition moveStart (this : ref) (vec : D) (h : Store) : Store :=
  let delta := vsub (startControl (h this)) (start (h this)) in
  let h := update this (with_startControl (vadd vec delta)) h in
  update this (with_start vec) h.
Definition moveEnd (this : ref) (vec : D) (h : Store) : Store :=
  let delta := vsub (endControl (h this)) (end_ (h this)) in
  let h := update this (with_endControl (vadd vec delta)) h in
  update this (with_end vec) h.

End Segment.

Arguments Segment D : clear implicits.
Arguments Store D : clear implicits.

(** *** Directions *)

Section Chaining.
Context {D : Type} `{Vector D}.

Definition getStartDirection (h : Store D) (this : ref) : D :=
  vnormalize (vsub (startControl (h this)) (start (h this))).
Definition getEndDirection (h : Store D) (this : ref) : D :=
  vnormalize (vsub (endControl (h this)) (end_ (h this))).

Definition setStartDirection (this : ref) (direction : D) (h : Store D) : Store D :=
  let length := vlength (getStartControlDelta h this) in
  setStartControlDelta this (vmul (vnormalize direction) length) h.
Definition setEndDirection (this : ref) (direction : D) (h : Store D) : Store D :=
  let length := vlength (getEndControlDelta h this) in
  setEndControlDelta this (vmul (vnormalize direction) length) h.

(** *** Chaining *)

(** [setPreviousSegment] and [setNextSegment] call each other on the old
    and on the new neighbour, always as [x.setYSegment(arg, false)]: the
    third parameter is left out there and takes its default.  As for the
    anchors, the bodies take the other method as an argument. *)
Definition setPreviousSegment_body
    (call_setNextSegment : ref -> option ref -> Store D -> Store D)
    (this : ref) (segment : option ref) (sync copyDirection : option bool)
    (h : Store D) : Store D :=
  let sync := default true sync in
  let copyDirection := default true copyDirection in
  let current := previous (h this) in
  if decide (segment = current) then h else
  let h :=
    if sync then
      match current with
      | Some cur => call_setNextSegment cur None h
      | None => h
      end
    else h in
  match segment with
  | Some seg =>
      let h := update this (with_previous (Some seg)) h in
      let newStart := getEnd h seg in
      let h := update this (with_start newStart) h in
      let h :=
        if copyDirection
        then setStartDirection this (vmul (getEndDirection h seg) (-1)) h
        else h in
      if sync then call_setNextSegment seg (Some this) h else h
  | None => update this (with_previous None) h
  end.

(** [copyDirection?: boolean] has no default: left out it is [undefined],
    which the test [if (copyDirection)] takes as false. *)
Definition setNextSegment_body
    (call_setPreviousSegment : ref -> option ref -> Store D -> Store D)
    (this : ref) (segment : option ref) (sync copyDirection : option bool)
    (h : Store D) : Store D :=
  let sync := default true sync in
  let copyDirection := default false copyDirection in
  let current := next (h this) in
  if decide (segment = current) then h else
  let h :=
    if sync then
      match current with
      | Some cur => call_setPreviousSegment cur None h
      | None => h
      end
    else h in
  match segment with
  | Some seg =>
      let h := update this (with_next (Some seg)) h in
      let newEnd := getStart h seg in
      let h := update this (with_start newEnd) h in
      let h :=
        if copyDirection
        then setEndDirection this (vmul (getStartDirection h seg) (-1)) h
        else h in
      if sync then call_setPreviousSegment seg (Some this) h else h
  | None => update this (with_next None) h
  end.

(** The reciprocal calls [x.setNextSegment(arg, false)] and
    [x.setPreviousSegment(arg, false)]. *)
Definition setNextSegment_nosync (this : ref) (segment : option ref)
    (h : Store D) : Store D :=
  setNextSegment_body not_called this segment (Some false) None h.
Definition setPreviousSegment_nosync (this : ref) (segment : option ref)
    (h : Store D) : Store D :=
  setPreviousSegment_body not_called this segment (Some false) None h.

Definition setPreviousSegment
    : ref -> option ref -> option bool -> option bool -> Store D -> Store D :=
  setPreviousSegment_body setNextSegment_nosync.
Definition setNextSegment
    : ref -> option ref -> option bool -> option bool -> Store D -> Store D :=
  setNextSegment_body setPreviousSegment_nosync.

End Chaining.

(** A segment pair is linked when each names the other. *)
Definition linked {D : Type} (h : Store D) (A B : ref) : Prop :=
  next (h A) = Some B /\ previous (h B) = Some A.

(** The control point that [setStartDirection] / [setEndDirection] store for
    an anchor, from the requested direction and the control and anchor held
    before the call. *)
Definition redirected {D : Type} `{Vector D} (direction control anchor : D) : D :=
  vsub (vmul (vnormalize direction) (vlength (vsub control anchor))) anchor.

(** What unlinking the pair A, B may change from [h] to [h']: the two links
    of the pair are cleared, no point of any segment moves, and no other link
    changes. *)
Definition unlink_effect {D : Type} (h h' : Store D) (A B : ref) : Prop :=
  getNextSegment h' A = None /\ getPreviousSegment h' B = None
  /\ (forall r, getStart h' r = getStart h r
                /\ getStartControl h' r = getStartControl h r
                /\ getEndControl h' r = getEndControl h r
                /\ getEnd h' r = getEnd h r)
  /\ (forall r, r <> A -> getNextSegment h' r = getNextSegment h r)
  /\ (forall r, r <> B -> getPreviousSegment h' r = getPreviousSegment h r).

(** ** Concrete segments in the plane *)

Module Scenario.

Abbreviation vec a b := (mkVec2 a b).

Definition A : ref := 0.
Definition B : ref := 1.

(** A store in which no segment of interest has been created yet. *)
Definition blank : Store Vec2 :=
  fun _ => constructor (vec 0 0) (vec 0 0) None None.

(** [r = new BezierSegmentState(...)]: the new object is stored at [r]. *)
Definition new (r : ref) (s : Segment Vec2) (h : Store Vec2) : Store Vec2 :=
  <[r := s]> h.

(** Two fresh straight segments: A from (0,0) to (1,0), B from (2,0) to
    (3,0). *)
Definition fresh_pair : Store Vec2 :=
  new B (constructor (vec 2 0) (vec 3 0) None None)
    (new A (constructor (vec 0 0) (vec 1 0) None None) blank).

(** [B.setPreviousSegment(A, false); A.moveEnd((9,9))]: B names A as its
    previous segment, A does not name B yet, and A's end has moved on. *)
Definition half_linked_moved : Store Vec2 :=
  moveEnd A (vec 9 9)
    (setPreviousSegment B (Some A) (Some false) None fresh_pair).

(** [A.setNextSegment(B, false)]: A names B as next, B does not name A. *)
Definition half_linked : Store Vec2 :=
  setNextSegment A (Some B) (Some false) None fresh_pair.

(** [A.setNextSegment(B)]: the pair linked through the protocol. *)
Definition linked_pair : Store Vec2 :=
  setNextSegment A (Some B) None None fresh_pair.

(** The scenario of the spec: A ends in (5,5), B starts in (0,0). *)
Definition spec_pair : Store Vec2 :=
  new B (constructor (vec 0 0) (vec 10 0) None None)
    (new A (constructor (vec 1 1) (vec 5 5) None None) blank).

(** Two segments with control points off their anchors, all on the x axis:
    A runs from (3,0) to (10,0) with end control (11,0), B runs from (0,0)
    to (5,0) with start control (1,0). *)
Definition curved_pair : Store Vec2 :=
  setStartControl B (vec 1 0)
    (new B (constructor (vec 0 0) (vec 5 0) None None)
      (setEndControl A (vec 11 0)
        (new A (constructor (vec 3 0) (vec 10 0) None None) blank))).

(** One segment from (1,0) to (9,0) with start control (4,0) and end
    control (11,0). *)
Definition curved_single : Store Vec2 :=
  setEndControl A (vec 11 0)
    (setStartControl A (vec 4 0)
      (new A (constructor (vec 1 0) (vec 9 0) None None) blank)).

(** [new BezierSegmentState((1,1), (2,3), (4,5), (6,6))]. *)
Definition four_point : Store Vec2 :=
  new A (constructor (vec 1 1) (vec 2 3) (Some (vec 4 5)) (Some (vec 6 6)))
    blank.

End Scenario.

(** ** Concrete segments over binary64 numbers *)

Module Scenario64.

Abbreviation vecF a b := (mkVec2F a b).

Definition A : ref := 0.

Definition blank : Store Vec2F :=
  fun _ => constructor (vecF 0 0) (vecF 0 0) None None.



End Scenario64.

(** ** Chains *)

(** The links of a store are consistent when [next] and [previous] mirror
    each other. *)
Definition consistent {D : Type} (h : Store D) : Prop :=
  forall a b, next (h a) = Some b <-> previous (h b) = Some a.

(** The joints of a store are closed when every segment ends where its next
    segment starts. *)
Definition coincident {D : Type} (h : Store D) : Prop :=
  forall a b, next (h a) = Some b -> end_ (h a) = start (h b).

(** From [h] to [h'] no control point and no link of any segment changes. *)
Definition same_controls_and_links {D : Type} (h h' : Store D) : Prop :=
  forall x, startControl (h' x) = startControl (h x)
            /\ endControl (h' x) = endControl (h x)
            /\ previous (h' x) = previous (h x)
            /\ next (h' x) = next (h x).

(** ** The plain bezier and its approximation *)

(** The plain object [IBezier<D>] that [getPlain] returns. *)
Module Bezier.
Record IBezier (D : Type) := mkBezier {
  start : D;
  startControl : D;
  endControl : D;
  end_ : D
}.
Arguments mkBezier {D}.
End Bezier.

(** [Array.prototype.slice(start, end)] on integer arguments: a negative
    index counts from the end of the array, and both are clamped to it. *)
Definition slice {T : Type} (start0 end0 : Z) (l : list T) : list T :=
  let len := Z.of_nat (length l) in
  let k :=
    if (start0 <? 0)%Z then Z.max (len + start0) 0 else Z.min start0 len in
  let final :=
    if (end0 <? 0)%Z then Z.max (len + end0) 0 else Z.min end0 len in
  take (Z.to_nat (final - k)) (drop (Z.to_nat k) l).

Section Approximation.
Context {D : Type}.

(** The node type [IBezierNode<D>] with its field [point], and the function
    [sampleBezier] of [sweepObject/bezier], are not among the sources; they
    are taken as they come. *)
Variable IBezierNode : Type.
Variable point : IBezierNode -> D.
Variable sampleBezier : Bezier.IBezier D -> R -> list IBezierNode.

(** [plainBezier] is a [DataCacher] over the four point fields: it is
    computed again whenever one of them has changed, so a read yields the
    fields as they are. *)
Definition getPlain (h : Store D) (this : ref) : Bezier.IBezier D :=
  Bezier.mkBezier (start (h this)) (startControl (h this))
    (endControl (h this)) (end_ (h this)).

Definition getRecommendedApproximationPointCount (precision : R) : R :=
  precision.

Definition approximate (this : ref) (points : R) (skipLast : bool)
    (h : Store D) : list D :=
  let nodes := sampleBezier (getPlain h this) points in
  let out := if skipLast then slice 0 (-1) nodes else nodes in
  map point out.
End Approximation.

(** ** More concrete segments *)

Module Scenario2.
Import Scenario.

Definition C : ref := 2.

End Scenario2.

(** ** Reasoning about the store *)

Section StoreLemmas.
Context {D : Type}.
Implicit Types (h : Store D) (this x : ref) (f : Segment D -> Segment D).

Lemma update_eq this f h : update this f h this = f (h this).
Proof. unfold update. apply fn_lookup_insert. Qed.

Lemma update_ne this x f h : this <> x -> update this f h x = h x.
Proof. intros Hne. unfold update. now apply fn_lookup_insert_ne. Qed.

Lemma update_lookup this x f h :
  update this f h x = if decide (this = x) then f (h this) else h x.
Proof.
  destruct (decide (this = x)) as [->|Hne];
    [apply update_eq | now apply update_ne].
Qed.

(** A field that [f] keeps is the same in every object after [update]. *)
Lemma update_frame {T : Type} (field : Segment D -> T) this x f h :
  (forall s, field (f s) = field s) ->
  field (update this f h x) = field (h x).
Proof.
  intros Hf. rewrite update_lookup. case_decide; subst; [apply Hf | done].
Qed.

(** A field that [f] sets to [v] holds [v] in the updated object only. *)
Lemma update_field {T : Type} (field : Segment D -> T) (v : T) this x f h :
  (forall s, field (f s) = v) ->
  field (update this f h x) = if decide (this = x) then v else field (h x).
Proof.
  intros Hf. rewrite update_lookup. case_decide; subst; [apply Hf | done].
Qed.
End StoreLemmas.

(** Reads one field through one [update]. *)
Ltac read_update :=
  match goal with
  | |- context [?field (update ?this ?f ?h ?x)] =>
      first
        [ rewrite (update_frame field this x f h) by reflexivity
        | erewrite (update_field field _ this x f h)
            by (intros; cbn; reflexivity) ]
  end.

(** ** The reciprocal calls *)

Section NoSync.
Context {D : Type} `{Vector D}.

(** With [sync = false] a method makes no call on a neighbour, so the
    bodies at [sync = false] are the methods called with [sync = false]. *)
Lemma setStart_nosync_eq (this : ref) (vec : D) (h : Store D) :
  setStart this vec (Some false) h = setStart_nosync this vec h.
Proof. reflexivity. Qed.

Lemma setEnd_nosync_eq (this : ref) (vec : D) (h : Store D) :
  setEnd this vec (Some false) h = setEnd_nosync this vec h.
Proof. reflexivity. Qed.

Lemma setNextSegment_nosync_eq (this : ref) (segment : option ref)
    (h : Store D) :
  setNextSegment this segment (Some false) None h
  = setNextSegment_nosync this segment h.
Proof. reflexivity. Qed.

Lemma setPreviousSegment_nosync_eq (this : ref) (segment : option ref)
    (h : Store D) :
  setPreviousSegment this segment (Some false) None h
  = setPreviousSegment_nosync this segment h.
Proof. reflexivity. Qed.
End NoSync.


(** ** The effect of the reciprocal calls on each field *)

Section NoSyncEffect.
Context {D : Type} `{Vector D}.
Implicit Types (h : Store D) (this x s : ref) (segment : option ref).

Local Ltac effect :=
  intros;
  unfold setNextSegment_nosync, setPreviousSegment_nosync,
    setNextSegment_body, setPreviousSegment_body, setStartDirection,
    setStartControlDelta, setEndDirection, setEndControlDelta, not_called,
    getStart, getEnd, getStartControlDelta, getEndControlDelta,
    getStartDirection, getEndDirection, redirected;
  cbv beta iota zeta delta [default from_option Datatypes.id];
  repeat first
    [ read_update
    | match goal with
      | |- context [decide (?a = ?b)] => destruct (decide (a = b)); simplify_eq
      | |- context [match ?o with Some _ => _ | None => _ end] =>
          destruct o eqn:?; simplify_eq
      end ];
  try congruence.

Lemma next_setNextSegment_nosync this segment h x :
  next (setNextSegment_nosync this segment h x)
  = if decide (this = x) then segment else next (h x).
Proof. effect. Qed.

Lemma previous_setNextSegment_nosync this segment h x :
  previous (setNextSegment_nosync this segment h x) = previous (h x).
Proof. effect. Qed.

Lemma start_setNextSegment_nosync this segment h x :
  start (setNextSegment_nosync this segment h x)
  = match segment with
    | Some s =>
        if decide (this = x)
        then if decide (segment = next (h this))
             then start (h this) else start (h s)
        else start (h x)
    | None => start (h x)
    end.
Proof. effect. Qed.

Lemma startControl_setNextSegment_nosync this segment h x :
  startControl (setNextSegment_nosync this segment h x) = startControl (h x).
Proof. effect. Qed.

Lemma endControl_setNextSegment_nosync this segment h x :
  endControl (setNextSegment_nosync this segment h x) = endControl (h x).
Proof. effect. Qed.

Lemma end_setNextSegment_nosync this segment h x :
  end_ (setNextSegment_nosync this segment h x) = end_ (h x).
Proof. effect. Qed.

Lemma previous_setPreviousSegment_nosync this segment h x :
  previous (setPreviousSegment_nosync this segment h x)
  = if decide (this = x) then segment else previous (h x).
Proof. effect. Qed.

Lemma next_setPreviousSegment_nosync this segment h x :
  next (setPreviousSegment_nosync this segment h x) = next (h x).
Proof. effect. Qed.

Lemma start_setPreviousSegment_nosync this segment h x :
  start (setPreviousSegment_nosync this segment h x)
  = match segment with
    | Some s =>
        if decide (this = x)
        then if decide (segment = previous (h this))
             then start (h this) else end_ (h s)
        else start (h x)
    | None => start (h x)
    end.
Proof. effect. Qed.

Lemma startControl_setPreviousSegment_nosync this segment h x :
  startControl (setPreviousSegment_nosync this segment h x)
  = match segment with
    | Some s =>
        if decide (this = x)
        then if decide (segment = previous (h this))
             then startControl (h this)
             else redirected (vmul (getEndDirection h s) (-1))
                    (startControl (h this)) (end_ (h s))
        else startControl (h x)
    | None => startControl (h x)
    end.
Proof. effect. Qed.

Lemma endControl_setPreviousSegment_nosync this segment h x :
  endControl (setPreviousSegment_nosync this segment h x) = endControl (h x).
Proof. effect. Qed.

Lemma end_setPreviousSegment_nosync this segment h x :
  end_ (setPreviousSegment_nosync this segment h x) = end_ (h x).
Proof. effect. Qed.
End NoSyncEffect.

(** Unfolds a method down to its reciprocal calls and field updates. *)
Ltac unfold_methods :=
  unfold linked, unlink_effect in *;
  unfold setNextSegment, setPreviousSegment, setNextSegment_body,
    setPreviousSegment_body, setStart, setEnd, setStart_nosync, setEnd_nosync,
    setStart_body, setEnd_body, not_called, setStartDirection, setEndDirection,
    setStartControlDelta, setEndControlDelta, setStartControl, setEndControl,
    moveStart, moveEnd, getPreviousSegment, getNextSegment, getStart, getEnd,
    getStartControl, getEndControl, getStartControlDelta, getEndControlDelta,
    getStartDirection, getEndDirection, redirected in *;
  cbv beta iota zeta delta [default from_option Datatypes.id] in *.

(** Reads one field through one reciprocal call. *)
Ltac read_nosync :=
  first
    [ rewrite next_setNextSegment_nosync
    | rewrite previous_setNextSegment_nosync
    | rewrite start_setNextSegment_nosync
    | rewrite startControl_setNextSegment_nosync
    | rewrite endControl_setNextSegment_nosync
    | rewrite end_setNextSegment_nosync
    | rewrite previous_setPreviousSegment_nosync
    | rewrite next_setPreviousSegment_nosync
    | rewrite start_setPreviousSegment_nosync
    | rewrite startControl_setPreviousSegment_nosync
    | rewrite endControl_setPreviousSegment_nosync
    | rewrite end_setPreviousSegment_nosync ].

(** Succeeds on a term that reads the initial store only. *)
Ltac is_read t :=
  lazymatch t with
  | context [update _ _ _] => fail
  | context [setNextSegment_nosync _ _ _] => fail
  | context [setPreviousSegment_nosync _ _ _] => fail
  | context [match _ with Some _ => _ | None => _ end] => fail
  | context [decide _] => fail
  | _ => idtac
  end.

(** Reads the fields of the final store, splitting on the tests of the code
    in program order and on aliasing of the references. *)
Ltac store_cases :=
  repeat first
    [ read_nosync
    | read_update
    | progress unfold redirected, getEndDirection, getStartDirection
    | match goal with
      | |- context [match ?o with Some _ => _ | None => _ end] =>
          is_read o; destruct o eqn:?; simplify_eq
      | |- context [decide (?a = ?b)] =>
          is_read a; is_read b; destruct (decide (a = b)); simplify_eq
      end ];
  try congruence.

(** ** The linking protocol *)

Section Linking.
Context {D : Type} `{Vector D}.

(** C4. Replacement: when A has B as next and C is another segment than B,
    [A.setNextSegment(C)] with default arguments leaves B without a
    previous segment and makes A the previous segment of C. *)
Theorem setNextSegment_replaces (h : Store D) (A B C : ref) :
  getNextSegment h A = Some B ->
  B <> C ->
  let h' := setNextSegment A (Some C) None None h in
  getPreviousSegment h' B = None /\ getPreviousSegment h' C = Some A.
Proof.
  intros HAB HBC h'. subst h'. unfold_methods.
  split; store_cases.
Qed.

(** C3, amended. Symmetry: unless A already names B as next while B does not
    name A as previous, [A.setNextSegment(B, true)] leaves B with previous
    A and A with next B; and unless B already names A as previous while A
    does not name B as next, [B.setPreviousSegment(A, true)] leaves A with
    next B and B with previous A.  Either holds for every value of
    [copyDirection]. *)
Theorem link_symmetry (h : Store D) (A B : ref) (copyDirection : option bool) :
  ((getNextSegment h A = Some B -> getPreviousSegment h B = Some A) ->
   let h' := setNextSegment A (Some B) (Some true) copyDirection h in
   getPreviousSegment h' B = Some A /\ getNextSegment h' A = Some B)
  /\
  ((getPreviousSegment h B = Some A -> getNextSegment h A = Some B) ->
   let h' := setPreviousSegment B (Some A) (Some true) copyDirection h in
   getNextSegment h' A = Some B /\ getPreviousSegment h' B = Some A).
Proof.
  split; intros Hlink; destruct copyDirection as [[|]|];
    unfold_methods; split; store_cases;
    apply Hlink; congruence.
Qed.

(** C9, amended. Unlinking a linked pair with default arguments clears the
    relation on both sides: after [A.setNextSegment(null)], and likewise
    after [B.setPreviousSegment(null)], A has no next and B no previous
    segment.  No point of any segment moves, no other link changes, and
    both segments stay in the store. *)
Theorem unlink_clears_both_sides (h : Store D) (A B : ref) :
  linked h A B ->
  unlink_effect h (setNextSegment A None None None h) A B
  /\ unlink_effect h (setPreviousSegment B None None None h) A B.
Proof.
  intros [HAB HBA]; split; unfold_methods;
    (repeat split; [ .. | intros r Hr | intros r Hr]; store_cases).
Qed.

(** The points after [A.setNextSegment(B, true, copyDirection)] on two
    distinct segments that are not linked to each other yet. *)
Lemma setNextSegment_points (h : Store D) (A B : ref)
    (copyDirection : option bool) :
  A <> B ->
  getNextSegment h A <> Some B ->
  getPreviousSegment h B <> Some A ->
  let h' := setNextSegment A (Some B) (Some true) copyDirection h in
  let endControlA :=
    if default false copyDirection
    then redirected (vmul (getStartDirection h B) (-1))
           (getEndControl h A) (getEnd h A)
    else getEndControl h A in
  getStart h' A = getStart h B
  /\ getStartControl h' A = getStartControl h A
  /\ getEndControl h' A = endControlA
  /\ getEnd h' A = getEnd h A
  /\ getStart h' B = getEnd h A
  /\ getStartControl h' B
     = redirected (vmul (vnormalize (vsub endControlA (getEnd h A))) (-1))
         (getStartControl h B) (getEnd h A).
Proof.
  intros HAB Hnext Hprev.
  destruct copyDirection as [[|]|]; unfold_methods;
    repeat split; store_cases.
Qed.

(** C10, amended. The defaults of [copyDirection] differ: left out, it is
    true in [setPreviousSegment] and false in [setNextSegment].  For two
    distinct segments A and B not yet linked to each other:
    [B.setPreviousSegment(A)] with default arguments makes the direction
    copy: the start control of B is the one that
    [B.setStartDirection(A.getEndDirection().mul(-1))] stores once the start
    of B is the end of A, whereas with [copyDirection = false] it stays; its
    reciprocal call [A.setNextSegment(B, false)] leaves the controls of A as
    they were.  [A.setNextSegment(B)] with default arguments leaves the
    controls of A as they were, but its reciprocal call
    [B.setPreviousSegment(A, false)] takes the default
    [copyDirection = true] and makes the same direction copy on B. *)
Theorem copyDirection_defaults (h : Store D) (A B : ref) :
  A <> B ->
  getPreviousSegment h B <> Some A ->
  getNextSegment h A <> Some B ->
  let copied :=
    getStartControl
      (setStartDirection B (vmul (getEndDirection h A) (-1))
         (setStart B (getEnd h A) (Some false) h)) B in
  (forall s sync,
      setPreviousSegment B s sync None h
      = setPreviousSegment B s sync (Some true) h)
  /\ (forall s sync,
      setNextSegment A s sync None h
      = setNextSegment A s sync (Some false) h)
  /\ (let h' := setPreviousSegment B (Some A) None None h in
      getStartControl h' B = copied
      /\ getStartControl h' A = getStartControl h A
      /\ getEndControl h' A = getEndControl h A)
  /\ (let h' := setPreviousSegment B (Some A) None (Some false) h in
      getStartControl h' B = getStartControl h B)
  /\ (let h' := setNextSegment A (Some B) None None h in
      getStartControl h' A = getStartControl h A
      /\ getEndControl h' A = getEndControl h A
      /\ getStartControl h' B = copied).
Proof.
  intros HAB Hprev Hnext copied. subst copied.
  split; [reflexivity|]. split; [reflexivity|].
  unfold_methods. repeat split; store_cases.
Qed.
End Linking.

(** ** Moving and setting an anchor *)

Section Anchors.
Context {D : Type} `{VectorAdd D}.

End Anchors.

(** ** What the control setters store *)

Section ControlDelta.
Context {D : Type} `{Vector D}.

(** The delta read back after [setStartControlDelta(vec)] is [vec] minus
    twice the start. *)
Lemma setStartControlDelta_read_back (h : Store D) (this : ref) (vec : D) :
  getStartControlDelta (setStartControlDelta this vec h) this
  = vsub (vsub vec (getStart h this)) (getStart h this).
Proof.
  unfold getStartControlDelta, setStartControlDelta, getStart.
  now rewrite update_eq.
Qed.

Lemma setEndControlDelta_read_back (h : Store D) (this : ref) (vec : D) :
  getEndControlDelta (setEndControlDelta this vec h) this
  = vsub (vsub vec (getEnd h this)) (getEnd h this).
Proof.
  unfold getEndControlDelta, setEndControlDelta, getEnd.
  now rewrite update_eq.
Qed.

(** The four-point constructor stores each control relative to its anchor. *)
Lemma constructor_four_points (s sc ec e : D) :
  startControl (constructor s sc (Some ec) (Some e)) = vsub sc s
  /\ endControl (constructor s sc (Some ec) (Some e)) = vsub ec e.
Proof. split; reflexivity. Qed.

(** The two-point constructor stores each anchor as its own control. *)
Lemma constructor_two_points (s e : D) :
  constructor s e None None = mkSegment s s e e None None.
Proof. reflexivity. Qed.
End ControlDelta.

(** ** Vectors over the reals *)

Lemma sqrt_eval (x y : R) : (0 <= y)%R -> (y * y = x)%R -> sqrt x = y.
Proof. intros Hy <-. now apply sqrt_square. Qed.

(** Replaces a square root in the goal by its value [y]. *)
Ltac sqrt_is y :=
  match goal with
  | |- context [sqrt ?e] => rewrite (sqrt_eval e y) by lra
  end.

(** Runs the store operations of a concrete scenario and leaves the real
    arithmetic of the coordinates in place. *)
Ltac run_store :=
  cbv - [Rplus Rminus Rmult Rdiv Ropp Rinv sqrt IZR].

Lemma vec2_eq (a b c d : R) : a = c -> b = d -> mkVec2 a b = mkVec2 c d.
Proof. now intros -> ->. Qed.

Lemma vec2_neq_x (a b c d : R) : a <> c -> mkVec2 a b <> mkVec2 c d.
Proof. intros Hne [= Hx _]. now apply Hne. Qed.

(** Vectors on the x axis. *)
Section Axis.
Local Open Scope R_scope.

Lemma axis_sub (a b : R) :
  vsub (mkVec2 a 0) (mkVec2 b 0) = mkVec2 (a - b) 0.
Proof. apply vec2_eq; cbn; lra. Qed.

Lemma axis_mul (a k : R) : vmul (mkVec2 a 0) k = mkVec2 (a * k) 0.
Proof. apply vec2_eq; cbn; lra. Qed.

Lemma axis_length_pos (a : R) : 0 <= a -> vlength (mkVec2 a 0) = a.
Proof. intros Ha. cbn. unfold length2. cbn. apply sqrt_eval; lra. Qed.

Lemma axis_length_neg (a : R) : a <= 0 -> vlength (mkVec2 a 0) = - a.
Proof. intros Ha. cbn. unfold length2. cbn. apply sqrt_eval; lra. Qed.

Lemma axis_normalize_pos (a : R) :
  0 < a -> vnormalize (mkVec2 a 0) = mkVec2 1 0.
Proof.
  intros Ha. pose proof (axis_length_pos a ltac:(lra)) as Hlen.
  cbn in *. rewrite Hlen. apply vec2_eq; cbn; field; lra.
Qed.

Lemma axis_normalize_neg (a : R) :
  a < 0 -> vnormalize (mkVec2 a 0) = mkVec2 (-1) 0.
Proof.
  intros Ha. pose proof (axis_length_neg a ltac:(lra)) as Hlen.
  cbn in *. rewrite Hlen. apply vec2_eq; cbn; field; lra.
Qed.
End Axis.

(** Evaluates vector operations on x-axis vectors with known signs. *)
Ltac axis :=
  repeat first
    [ rewrite axis_sub | rewrite axis_mul
    | rewrite axis_normalize_pos by lra | rewrite axis_normalize_neg by lra
    | rewrite axis_length_pos by lra | rewrite axis_length_neg by lra ].

(** ** The code on concrete segments *)

Module Run.
Import Scenario.

(** C1. On the fresh pair, [A.setNextSegment(B)] leaves A's end at (1,0):
    B's start (2,0) is written to A's start, and the reciprocal call moves
    B's start to A's end.  When B already names A as previous, the
    reciprocal call returns at once, and A's end (9,9) differs from B's
    start (1,0) after the call. *)
Theorem setNextSegment_writes_start_not_end :
  (let h := setNextSegment A (Some B) None None fresh_pair in
   getStart fresh_pair B = vec 2 0
   /\ getEnd h A = vec 1 0 /\ getStart h A = vec 2 0
   /\ getStart h B = vec 1 0)
  /\
  (let h := setNextSegment A (Some B) None None half_linked_moved in
   getNextSegment h A = Some B
   /\ getEnd h A = vec 9 9 /\ getStart h B = vec 1 0
   /\ getEnd h A <> getStart h B).
Proof.
  split; cbv zeta; repeat split.
  change (vec 9 9 <> vec 1 0). apply vec2_neq_x. lra.
Qed.

(** C2. In the scenario of the spec, [B.setPreviousSegment(A)] moves B's
    start to (5,5), and its reciprocal call overwrites A's start, (1,1)
    before the call, with (5,5). *)
Theorem setPreviousSegment_overwrites_start_of_previous :
  let h := setPreviousSegment B (Some A) None None spec_pair in
  getEnd spec_pair A = vec 5 5 /\ getStart spec_pair B = vec 0 0
  /\ getStart h B = vec 5 5
  /\ getStart spec_pair A = vec 1 1 /\ getStart h A = vec 5 5
  /\ getStart h A <> getStart spec_pair A.
Proof.
  cbv zeta; repeat split.
  change (vec 5 5 <> vec 1 1). apply vec2_neq_x. lra.
Qed.

(** C8. The four-point constructor stores each control point minus its
    anchor, and the getters return the stored value: for start (1,1),
    controls (2,3) and (4,5), end (6,6), [getStartControl()] is (1,2) and
    [getEndControl()] is (-2,-1). *)
Theorem constructor_controls_relative :
  getStartControl four_point A = vec 1 2
  /\ getEndControl four_point A = vec (-2) (-1)
  /\ getStartControl four_point A <> vec 2 3
  /\ getEndControl four_point A <> vec 4 5.
Proof.
  assert (Hsc : getStartControl four_point A = vec 1 2)
    by (apply vec2_eq; run_store; lra).
  assert (Hec : getEndControl four_point A = vec (-2) (-1))
    by (apply vec2_eq; run_store; lra).
  rewrite Hsc, Hec. repeat split; apply vec2_neq_x; lra.
Qed.

(** C7. On the segment from (1,0) with start control (4,0), the start
    control delta has length 3; after [setStartDirection((1,0))] it is
    (1,0), of length 1.  At its end (9,0) with end control (11,0), the
    delta has length 2; after [setEndDirection((1,0))] it is (-16,0), of
    length 16 and of direction (-1,0). *)
Theorem setDirection_changes_length :
  vlength (getStartControlDelta curved_single A) = 3%R
  /\ (let h := setStartDirection A (vec 1 0) curved_single in
      getStartControlDelta h A = vec 1 0
      /\ vlength (getStartControlDelta h A) = 1%R)
  /\ vlength (getEndControlDelta curved_single A) = 2%R
  /\ (let h := setEndDirection A (vec 1 0) curved_single in
      getEndControlDelta h A = vec (-16) 0
      /\ vlength (getEndControlDelta h A) = 16%R
      /\ vnormalize (getEndControlDelta h A) = vec (-1) 0
      /\ vnormalize (vec 1 0) = vec 1 0).
Proof.
  assert (Hs : getStartControlDelta
                 (setStartDirection A (vec 1 0) curved_single) A = vec 1 0).
  { apply vec2_eq; run_store; sqrt_is 1%R; sqrt_is 3%R; lra. }
  assert (He : getEndControlDelta
                 (setEndDirection A (vec 1 0) curved_single) A = vec (-16) 0).
  { apply vec2_eq; run_store; sqrt_is 1%R; sqrt_is 2%R; lra. }
  cbv zeta. rewrite Hs, He.
  repeat split; try (apply vec2_eq); run_store;
    first [sqrt_is 3%R | sqrt_is 1%R | sqrt_is 2%R | sqrt_is 16%R]; lra.
Qed.

(** C5. Both boundary control deltas of the curved pair are (1,0).  After
    [A.setNextSegment(B, true, true)] the end direction of A is (-1,0) and
    the start direction of B is (-1,0) as well, so the end direction of A
    is the start direction of B and not its negation (1,0). *)
Theorem copyDirection_end_direction_not_negated :
  getEndControlDelta curved_pair A = vec 1 0
  /\ getStartControlDelta curved_pair B = vec 1 0
  /\ (let h := setNextSegment A (Some B) (Some true) (Some true) curved_pair in
      getEndDirection h A = vec (-1) 0
      /\ getStartDirection h B = vec (-1) 0
      /\ vmul (getStartDirection h B) (-1) = vec 1 0
      /\ getEndDirection h A <> vmul (getStartDirection h B) (-1)).
Proof.
  destruct (setNextSegment_points curved_pair A B (Some true))
    as (_ & _ & HecA & HeA & HsB & HscB); [done..|].
  cbv zeta in *. unfold getEndDirection, getStartDirection.
  unfold getEndControl, getEnd, getStart, getStartControl in HecA, HeA, HsB, HscB.
  rewrite HecA, HeA, HsB, HscB.
  unfold getEndControlDelta, getStartControlDelta, getStartDirection,
    getEndControl, getEnd, getStartControl, redirected.
  change (endControl (curved_pair A)) with (vec 11 0).
  change (end_ (curved_pair A)) with (vec 10 0).
  change (startControl (curved_pair B)) with (vec 1 0).
  change (start (curved_pair B)) with (vec 0 0).
  cbv beta iota delta [default from_option Datatypes.id].
  repeat split; axis; try (apply vec2_eq; lra).
  apply vec2_neq_x. lra.
Qed.

(** C3, as stated, fails: after [A.setNextSegment(B, false)] A names B as
    next, and [A.setNextSegment(B, true)] then returns at its first test
    and leaves B without a previous segment. *)
Lemma relink_leaves_previous_unset :
  getNextSegment half_linked A = Some B
  /\ (let h := setNextSegment A (Some B) (Some true) None half_linked in
      getNextSegment h A = Some B
      /\ getPreviousSegment h B = None
      /\ getPreviousSegment h B <> Some A).
Proof. cbv zeta. repeat split. discriminate. Qed.

(** C9, as stated, fails: on the linked pair, [A.setNextSegment(null)] with
    default arguments clears the previous link of B as well. *)
Lemma unlink_clears_neighbour_link :
  linked linked_pair A B
  /\ (let h := setNextSegment A None None None linked_pair in
      getNextSegment h A = None
      /\ getPreviousSegment h B = None
      /\ getPreviousSegment h B <> getPreviousSegment linked_pair B).
Proof. cbv zeta. repeat split. discriminate. Qed.

(** C10, as stated, fails: on the curved pair, [A.setNextSegment(B)] with
    default arguments makes the reciprocal call
    [B.setPreviousSegment(A, false)], which copies the direction: the start
    control of B, (1,0) before, is (-19,0) after, so that the start
    direction of B is the negated end direction of A. *)
Lemma reciprocal_call_copies_direction :
  getStartControl curved_pair B = vec 1 0
  /\ (let h := setNextSegment A (Some B) None None curved_pair in
      getStartControl h B = vec (-19) 0
      /\ getStartControl h B <> getStartControl curved_pair B
      /\ getEndControl h A = getEndControl curved_pair A).
Proof.
  destruct (setNextSegment_points curved_pair A B None)
    as (_ & _ & HecA & _ & _ & HscB); [done..|].
  cbv zeta in *.
  change (setNextSegment A (Some B) (Some true) None curved_pair)
    with (setNextSegment A (Some B) None None curved_pair) in *.
  rewrite HscB, HecA.
  unfold getEndControl, getEnd, getStartControl, redirected.
  change (endControl (curved_pair A)) with (vec 11 0).
  change (end_ (curved_pair A)) with (vec 10 0).
  change (startControl (curved_pair B)) with (vec 1 0).
  cbv beta iota delta [default from_option Datatypes.id].
  repeat split; axis; try (apply vec2_eq; lra).
  apply vec2_neq_x. lra.
Qed.

(** *** The general results on concrete stores *)

Lemma setNextSegment_replaces_witness :
  getNextSegment linked_pair A = Some B
  /\ B <> 2
  /\ (let h' := setNextSegment A (Some 2) None None linked_pair in
      getPreviousSegment h' B = None /\ getPreviousSegment h' 2 = Some A).
Proof.
  split; [reflexivity|]. split; [discriminate|].
  apply (setNextSegment_replaces linked_pair A B 2); [reflexivity|discriminate].
Defined.

Lemma link_symmetry_witness :
  (let h' := setNextSegment A (Some B) (Some true) None fresh_pair in
   getPreviousSegment h' B = Some A /\ getNextSegment h' A = Some B)
  /\
  (let h' := setPreviousSegment B (Some A) (Some true) None fresh_pair in
   getNextSegment h' A = Some B /\ getPreviousSegment h' B = Some A).
Proof.
  destruct (link_symmetry fresh_pair A B None) as [Hnext Hprev].
  split; [apply Hnext | apply Hprev]; discriminate.
Defined.

Lemma unlink_clears_both_sides_witness :
  linked linked_pair A B
  /\ unlink_effect linked_pair
       (setNextSegment A None None None linked_pair) A B
  /\ unlink_effect linked_pair
       (setPreviousSegment B None None None linked_pair) A B.
Proof.
  assert (Hlinked : linked linked_pair A B) by (split; reflexivity).
  split; [exact Hlinked|].
  exact (unlink_clears_both_sides linked_pair A B Hlinked).
Defined.

Lemma copyDirection_defaults_witness :
  A <> B
  /\ getPreviousSegment curved_pair B <> Some A
  /\ getNextSegment curved_pair A <> Some B
  /\ (let h' := setNextSegment A (Some B) None None curved_pair in
      getStartControl h' A = getStartControl curved_pair A
      /\ getEndControl h' A = getEndControl curved_pair A
      /\ getStartControl h' B
         = getStartControl
             (setStartDirection B (vmul (getEndDirection curved_pair A) (-1))
                (setStart B (getEnd curved_pair A) (Some false) curved_pair))
             B).
Proof.
  assert (HAB : A <> B) by discriminate.
  assert (Hprev : getPreviousSegment curved_pair B <> Some A) by discriminate.
  assert (Hnext : getNextSegment curved_pair A <> Some B) by discriminate.
  repeat (split; [assumption|]).
  exact (proj2 (proj2 (proj2 (proj2
    (copyDirection_defaults curved_pair A B HAB Hprev Hnext))))).
Defined.

End Run.

(** ** Further properties of the linking protocol *)

(** Splits on the resolved values of the optional flags of a link call. *)
Ltac split_flag t :=
  match goal with
  | |- context [t] => generalize t; intros []
  | _ => idtac
  end.

Ltac link_flags sync copyDirection :=
  unfold setNextSegment, setPreviousSegment, setNextSegment_body,
    setPreviousSegment_body;
  change (default true (@None bool)) with true;
  split_flag (default true sync);
  split_flag (default false copyDirection);
  split_flag (default true copyDirection).

Section LinkEffect.
Context {D : Type} `{Vector D}.
Implicit Types (h : Store D) (this x : ref) (segment : option ref)
  (sync copyDirection : option bool).

Lemma next_setNextSegment this segment sync copyDirection h x :
  next (setNextSegment this segment sync copyDirection h x)
  = if decide (this = x) then segment else next (h x).
Proof.
  link_flags sync copyDirection; unfold_methods; store_cases.
Qed.

Lemma previous_setPreviousSegment this segment sync copyDirection h x :
  previous (setPreviousSegment this segment sync copyDirection h x)
  = if decide (this = x) then segment else previous (h x).
Proof.
  link_flags sync copyDirection; unfold_methods; store_cases.
Qed.

Lemma previous_setNextSegment this segment copyDirection h x :
  previous (setNextSegment this segment None copyDirection h x)
  = if decide (segment = next (h this)) then previous (h x)
    else if decide (segment = Some x) then Some this
    else if decide (next (h this) = Some x) then None
    else previous (h x).
Proof.
  link_flags (@None bool) copyDirection; unfold_methods; store_cases.
Qed.

Lemma next_setPreviousSegment this segment copyDirection h x :
  next (setPreviousSegment this segment None copyDirection h x)
  = if decide (segment = previous (h this)) then next (h x)
    else if decide (segment = Some x) then Some this
    else if decide (previous (h this) = Some x) then None
    else next (h x).
Proof.
  link_flags (@None bool) copyDirection; unfold_methods; store_cases.
Qed.

Lemma end_setNextSegment this segment sync copyDirection h x :
  end_ (setNextSegment this segment sync copyDirection h x) = end_ (h x).
Proof.
  link_flags sync copyDirection; unfold_methods; store_cases.
Qed.

Lemma end_setPreviousSegment this segment sync copyDirection h x :
  end_ (setPreviousSegment this segment sync copyDirection h x) = end_ (h x).
Proof.
  link_flags sync copyDirection; unfold_methods; store_cases.
Qed.

Lemma endControl_setPreviousSegment this segment sync copyDirection h x :
  endControl (setPreviousSegment this segment sync copyDirection h x)
  = endControl (h x).
Proof.
  link_flags sync copyDirection; unfold_methods; store_cases.
Qed.

End LinkEffect.

Section LinkProperties.
Context {D : Type} `{Vector D}.
Implicit Types (h : Store D) (this x : ref) (segment : option ref)
  (sync copyDirection : option bool).

(** Re-setting the neighbour a segment already has returns the store as it is. *)
Lemma setNextSegment_same this segment sync copyDirection h :
  next (h this) = segment ->
  setNextSegment this segment sync copyDirection h = h.
Proof.
  intros <-. unfold setNextSegment, setNextSegment_body.
  cbv zeta. now rewrite decide_True.
Qed.

Lemma setPreviousSegment_same this segment sync copyDirection h :
  previous (h this) = segment ->
  setPreviousSegment this segment sync copyDirection h = h.
Proof.
  intros <-. unfold setPreviousSegment, setPreviousSegment_body.
  cbv zeta. now rewrite decide_True.
Qed.

(** X1. Idempotence: a second [setNextSegment] (or [setPreviousSegment])
    call on the same segment with the same neighbour, whatever its flags,
    returns the store of the first call unchanged. *)
Theorem link_twice_is_once this segment sync copyDirection sync' copyDirection' h :
  setNextSegment this segment sync' copyDirection'
    (setNextSegment this segment sync copyDirection h)
  = setNextSegment this segment sync copyDirection h
  /\ setPreviousSegment this segment sync' copyDirection'
       (setPreviousSegment this segment sync copyDirection h)
     = setPreviousSegment this segment sync copyDirection h.
Proof.
  split.
  - apply setNextSegment_same. rewrite next_setNextSegment.
    now rewrite decide_True.
  - apply setPreviousSegment_same. rewrite previous_setPreviousSegment.
    now rewrite decide_True.
Qed.

(** X2. Replacement at the start: when B has A as previous and C is another
    segment than A, [B.setPreviousSegment(C)] with default arguments leaves
    A without a next segment and makes B the next segment of C. *)
Theorem setPreviousSegment_replaces h (A B C : ref) :
  getPreviousSegment h B = Some A ->
  A <> C ->
  let h' := setPreviousSegment B (Some C) None None h in
  getNextSegment h' A = None /\ getNextSegment h' C = Some B.
Proof.
  intros HBA HAC h'. subst h'. unfold getNextSegment, getPreviousSegment in *.
  rewrite !next_setPreviousSegment, HBA.
  split; repeat case_decide; simplify_eq; congruence.
Qed.

(** X3. A link call unlinks the old neighbour of [this] only: when P and C
    are linked and A takes C as next, C names A as previous but P still
    names C as next; when A takes P as previous, P names A as next but C
    still names P as previous. *)
Theorem new_neighbour_keeps_old_partner h (A P C : ref) :
  linked h P C ->
  (getNextSegment h A <> Some C ->
   let h' := setNextSegment A (Some C) None None h in
   getPreviousSegment h' C = Some A /\ getNextSegment h' P = Some C
   /\ P <> A)
  /\
  (getPreviousSegment h A <> Some P ->
   let h' := setPreviousSegment A (Some P) None None h in
   getNextSegment h' P = Some A /\ getPreviousSegment h' C = Some P
   /\ C <> A).
Proof.
  intros [HPC HCP]. unfold getNextSegment, getPreviousSegment in *.
  cbv zeta.
  rewrite !previous_setNextSegment, !next_setNextSegment,
    !next_setPreviousSegment, !previous_setPreviousSegment.
  split; intros Hne; repeat split; repeat case_decide; simplify_eq;
    congruence.
Qed.
(** X15. Linking and unlinking again restores every link: when A has no
    next and B no previous segment, [A.setNextSegment(B)] followed by
    [A.setNextSegment(null)] leaves the links of all segments as they
    were, and so does [B.setPreviousSegment(A)] followed by
    [B.setPreviousSegment(null)]. *)
Theorem link_then_unlink_restores_links h (A B : ref) copyDirection copyDirection' :
  getNextSegment h A = None ->
  getPreviousSegment h B = None ->
  (let h' := setNextSegment A None None copyDirection'
               (setNextSegment A (Some B) None copyDirection h) in
   forall x, getNextSegment h' x = getNextSegment h x
             /\ getPreviousSegment h' x = getPreviousSegment h x)
  /\
  (let h' := setPreviousSegment B None None copyDirection'
               (setPreviousSegment B (Some A) None copyDirection h) in
   forall x, getNextSegment h' x = getNextSegment h x
             /\ getPreviousSegment h' x = getPreviousSegment h x).
Proof.
  intros HA HB. unfold getNextSegment, getPreviousSegment in *. cbv zeta.
  split; intros x;
    rewrite ?previous_setNextSegment, ?next_setNextSegment,
      ?next_setPreviousSegment, ?previous_setPreviousSegment;
    rewrite ?decide_True by done; rewrite ?HA, ?HB;
    split; repeat case_decide; simplify_eq; congruence.
Qed.
End LinkProperties.

#[local] Set Warnings "-clear-no-such-hyp".

Section Consistency.
Context {D : Type} `{Vector D}.
Implicit Types (h : Store D).

Local Ltac read_links :=
  intros a b; unfold getNextSegment, getPreviousSegment in *;
  rewrite ?previous_setNextSegment, ?next_setNextSegment,
    ?next_setPreviousSegment, ?previous_setPreviousSegment.

Local Ltac split_tests :=
  repeat match goal with
         | |- context [decide ?P] => destruct (decide P)
         end;
  simplify_eq;
  repeat match goal with
         | E : None = _ |- _ => symmetry in E
         | E : Some _ = _ |- _ => symmetry in E
         end;
  timeout 60 naive_solver.

(** X4. Link calls with [sync] left at its default keep the links
    consistent when the new neighbour is free on the side that is linked:
    [A.setNextSegment(C)] when C has no previous segment,
    [A.setPreviousSegment(C)] when C has no next segment, and unlinking
    always. *)
Theorem link_keeps_consistency h (A C : ref) (copyDirection : option bool) :
  consistent h ->
  (getPreviousSegment h C = None ->
   consistent (setNextSegment A (Some C) None copyDirection h))
  /\ consistent (setNextSegment A None None copyDirection h)
  /\ (getNextSegment h C = None ->
      consistent (setPreviousSegment A (Some C) None copyDirection h))
  /\ consistent (setPreviousSegment A None None copyDirection h).
Proof.
  intros Hc. split; [|split; [|split]].
  - intros HC. read_links.
    pose proof (Hc a b); pose proof (Hc A b); pose proof (Hc a C);
      pose proof (Hc A C).
    split_tests.
  - read_links. pose proof (Hc a b); pose proof (Hc A b).
    split_tests.
  - intros HC. read_links.
    pose proof (Hc a b); pose proof (Hc a A); pose proof (Hc C b);
      pose proof (Hc C A).
    split_tests.
  - read_links. pose proof (Hc a b); pose proof (Hc a A).
    split_tests.
Qed.
End Consistency.

Section Frames.
Context {D : Type} `{Vector D}.
Implicit Types (h : Store D) (this x : ref) (segment : option ref)
  (sync copyDirection : option bool).

Lemma setNextSegment_nosync_other this segment h x :
  this <> x -> setNextSegment_nosync this segment h x = h x.
Proof.
  intros Hx. unfold setNextSegment_nosync, setNextSegment_body, not_called.
  cbv beta iota zeta delta [default from_option Datatypes.id].
  case_decide; [done|]. destruct segment; now rewrite ?update_ne.
Qed.

Lemma setPreviousSegment_nosync_other this segment h x :
  this <> x -> setPreviousSegment_nosync this segment h x = h x.
Proof.
  intros Hx. unfold setPreviousSegment_nosync, setPreviousSegment_body,
    not_called, setStartDirection, setStartControlDelta.
  cbv beta iota zeta delta [default from_option Datatypes.id].
  case_decide; [done|]. destruct segment; now rewrite ?update_ne.
Qed.

Local Ltac other_object :=
  repeat first
    [ rewrite update_ne by congruence
    | rewrite setNextSegment_nosync_other by congruence
    | rewrite setPreviousSegment_nosync_other by congruence
    | match goal with
      | |- context [decide ?P] => destruct (decide P)
      | |- context [match ?o with Some _ => _ | None => _ end] =>
          destruct o eqn:?
      end ];
  try done.

(** X5. A link call with [sync = false] changes no object but [this]; with
    any [sync] it changes no object other than [this], the old neighbour
    and the new neighbour. *)
Theorem link_touches_three_objects this segment sync copyDirection h x :
  this <> x ->
  (setNextSegment this segment (Some false) copyDirection h x = h x
   /\ setPreviousSegment this segment (Some false) copyDirection h x = h x)
  /\
  (segment <> Some x ->
   (getNextSegment h this <> Some x ->
    setNextSegment this segment sync copyDirection h x = h x)
   /\
   (getPreviousSegment h this <> Some x ->
    setPreviousSegment this segment sync copyDirection h x = h x)).
Proof.
  intros Hx. unfold getNextSegment, getPreviousSegment.
  split; [split | intros Hseg; split; intros Hcur];
    link_flags sync copyDirection;
    unfold setEndDirection, setEndControlDelta, setStartDirection,
      setStartControlDelta;
    cbv beta iota zeta delta [default from_option Datatypes.id];
    other_object; congruence.
Qed.

(** X6. No link call, whatever its arguments, changes the end point of any
    segment, and [setPreviousSegment] changes no end control either. *)
Theorem link_never_moves_an_end this segment sync copyDirection h x :
  getEnd (setNextSegment this segment sync copyDirection h) x = getEnd h x
  /\ getEnd (setPreviousSegment this segment sync copyDirection h) x
     = getEnd h x
  /\ getEndControl (setPreviousSegment this segment sync copyDirection h) x
     = getEndControl h x.
Proof.
  unfold getEnd, getEndControl.
  now rewrite end_setNextSegment, end_setPreviousSegment,
    endControl_setPreviousSegment.
Qed.

(** X7. Position propagation at the start: unless B already names A as
    previous, after [B.setPreviousSegment(A, sync, copyDirection)] the start
    of B is the end of A, and the end of A is where it was. *)
Theorem setPreviousSegment_joins h (A B : ref) sync copyDirection :
  getPreviousSegment h B <> Some A ->
  let h' := setPreviousSegment B (Some A) sync copyDirection h in
  getStart h' B = getEnd h' A /\ getEnd h' A = getEnd h A.
Proof.
  intros Hprev h'. subst h'. unfold getStart, getEnd, getPreviousSegment in *.
  rewrite end_setPreviousSegment. split; [|done].
  link_flags sync copyDirection; unfold_methods; store_cases.
Qed.

(** X8. The points after [A.setNextSegment(B)] with [sync] at its default,
    for B other than A and not yet the next segment of A: the start of A is
    B's start of before and the end of A is where it was; the start of B is
    moved to the end of A unless B already names A as previous, in which
    case it stays. *)
Theorem setNextSegment_moves_start h (A B : ref) copyDirection :
  A <> B ->
  getNextSegment h A <> Some B ->
  let h' := setNextSegment A (Some B) None copyDirection h in
  getStart h' A = getStart h B
  /\ getEnd h' A = getEnd h A
  /\ (getPreviousSegment h B <> Some A -> getStart h' B = getEnd h' A)
  /\ (getPreviousSegment h B = Some A -> getStart h' B = getStart h B).
Proof.
  intros HAB Hnext h'. subst h'.
  unfold getStart, getEnd, getNextSegment, getPreviousSegment in *.
  rewrite end_setNextSegment.
  link_flags (@None bool) copyDirection; unfold_methods;
    repeat split; try intros Hprev; store_cases.
Qed.
End Frames.

Section AnchorSync.
Context {D : Type} `{Vector D}.
Implicit Types (h : Store D) (this x p : ref) (v : D).

Lemma start_setStart this v sync h x :
  start (setStart this v sync h x) = if decide (this = x) then v else start (h x).
Proof. destruct sync as [[|]|]; unfold_methods; store_cases. Qed.

Lemma end_setStart this v h x :
  end_ (setStart this v None h x)
  = if decide (previous (h this) = Some x) then v else end_ (h x).
Proof. unfold_methods; store_cases. Qed.

Lemma end_setEnd this v sync h x :
  end_ (setEnd this v sync h x) = if decide (this = x) then v else end_ (h x).
Proof. destruct sync as [[|]|]; unfold_methods; store_cases. Qed.

Lemma start_setEnd this v h x :
  start (setEnd this v None h x)
  = if decide (next (h this) = Some x) then v else start (h x).
Proof. unfold_methods; store_cases. Qed.

Lemma setStart_same_controls_and_links this v sync h :
  same_controls_and_links h (setStart this v sync h).
Proof.
  intros x. destruct sync as [[|]|]; unfold_methods; repeat split; store_cases.
Qed.

Lemma setEnd_same_controls_and_links this v sync h :
  same_controls_and_links h (setEnd this v sync h).
Proof.
  intros x. destruct sync as [[|]|]; unfold_methods; repeat split; store_cases.
Qed.

(** X9. [setStart(v)] with [sync] at its default sets the start of [this]
    and the end of its previous segment, if it has one, to [v]; no other
    start or end point, no control point and no link changes.  With
    [sync = false] no other object changes. *)
Theorem setStart_reaches_previous this v h :
  let h' := setStart this v None h in
  getStart h' this = v
  /\ (forall p, getPreviousSegment h this = Some p -> getEnd h' p = v)
  /\ (forall x, getPreviousSegment h this <> Some x -> getEnd h' x = getEnd h x)
  /\ (forall x, x <> this -> getStart h' x = getStart h x)
  /\ same_controls_and_links h h'
  /\ (forall x, x <> this -> setStart this v (Some false) h x = h x).
Proof.
  cbv zeta. unfold getStart, getEnd, getPreviousSegment.
  split; [|split; [|split; [|split; [|split]]]].
  - rewrite start_setStart. now rewrite decide_True.
  - intros p Hp. rewrite end_setStart. now rewrite decide_True.
  - intros x Hx. rewrite end_setStart. now rewrite decide_False.
  - intros x Hx. rewrite start_setStart. now rewrite decide_False.
  - apply setStart_same_controls_and_links.
  - intros x Hx. unfold_methods. now rewrite update_ne.
Qed.

(** X10. [setEnd(v)] with [sync] at its default sets the end of [this] and
    the start of its next segment, if it has one, to [v]; no other start or
    end point, no control point and no link changes.  With [sync = false]
    no other object changes. *)
Theorem setEnd_reaches_next this v h :
  let h' := setEnd this v None h in
  getEnd h' this = v
  /\ (forall n, getNextSegment h this = Some n -> getStart h' n = v)
  /\ (forall x, getNextSegment h this <> Some x -> getStart h' x = getStart h x)
  /\ (forall x, x <> this -> getEnd h' x = getEnd h x)
  /\ same_controls_and_links h h'
  /\ (forall x, x <> this -> setEnd this v (Some false) h x = h x).
Proof.
  cbv zeta. unfold getStart, getEnd, getNextSegment.
  split; [|split; [|split; [|split; [|split]]]].
  - rewrite end_setEnd. now rewrite decide_True.
  - intros p Hp. rewrite start_setEnd. now rewrite decide_True.
  - intros x Hx. rewrite start_setEnd. now rewrite decide_False.
  - intros x Hx. rewrite end_setEnd. now rewrite decide_False.
  - apply setEnd_same_controls_and_links.
  - intros x Hx. unfold_methods. now rewrite update_ne.
Qed.

(** X11. In a store with consistent links and closed joints, [setStart(v)]
    and [setEnd(v)] with [sync] at its default keep the links consistent and
    the joints closed. *)
Theorem anchor_setters_keep_chain this v h :
  consistent h ->
  coincident h ->
  (consistent (setStart this v None h) /\ coincident (setStart this v None h))
  /\ (consistent (setEnd this v None h) /\ coincident (setEnd this v None h)).
Proof.
  intros Hc Hj. repeat apply conj.
  - intros a b.
    destruct (setStart_same_controls_and_links this v None h a) as (_&_&_&->).
    destruct (setStart_same_controls_and_links this v None h b) as (_&_&->&_).
    apply Hc.
  - intros a b.
    destruct (setStart_same_controls_and_links this v None h a) as (_&_&_&->).
    intros Hab. rewrite end_setStart, start_setStart.
    pose proof (Hj a b Hab). pose proof (Hc a b). pose proof (Hc a this).
    repeat case_decide; simplify_eq; naive_solver.
  - intros a b.
    destruct (setEnd_same_controls_and_links this v None h a) as (_&_&_&->).
    destruct (setEnd_same_controls_and_links this v None h b) as (_&_&->&_).
    apply Hc.
  - intros a b.
    destruct (setEnd_same_controls_and_links this v None h a) as (_&_&_&->).
    intros Hab. rewrite end_setEnd, start_setEnd.
    pose proof (Hj a b Hab). pose proof (Hc a b). pose proof (Hc this b).
    repeat case_decide; simplify_eq; naive_solver.
Qed.

(** X12. [moveStart] and [moveEnd] do not reach the neighbour: on a linked
    pair of two segments, moving the shared anchor of one of them to a point
    [v] other than the neighbour's anchor keeps the link and leaves the
    neighbour's anchor where it was, so that the two anchors differ. *)
Theorem move_opens_joint this p v h :
  p <> this ->
  (linked h p this -> v <> getEnd h p ->
   let h' := moveStart this v h in
   linked h' p this /\ getStart h' this = v /\ getEnd h' p = getEnd h p
   /\ getEnd h' p <> getStart h' this)
  /\
  (linked h this p -> v <> getStart h p ->
   let h' := moveEnd this v h in
   linked h' this p /\ getEnd h' this = v /\ getStart h' p = getStart h p
   /\ getEnd h' this <> getStart h' p).
Proof.
  intros Hp. split; intros [Hn Hpv] Hv; cbv zeta;
    unfold linked, getStart, getEnd, moveStart, moveEnd;
    rewrite ?update_eq, ?(update_ne this p) by done; cbn;
    repeat split; try done; congruence.
Qed.
End AnchorSync.

Lemma slice_drops_last {T : Type} (l : list T) :
  slice 0 (-1) l = take (length l - 1) l.
Proof.
  unfold slice. cbv zeta.
  change (0 <? 0)%Z with false. change (-1 <? 0)%Z with true. cbv iota.
  replace (Z.to_nat (Z.min 0 (Z.of_nat (length l)))) with 0%nat by lia.
  rewrite drop_0. f_equal. lia.
Qed.

Section ApproximationProperties.
Context {D IBezierNode : Type}.
Variable point : IBezierNode -> D.
Variable sampleBezier : Bezier.IBezier D -> R -> list IBezierNode.

(** X13. [approximate(points, false)] is the points of all sampled nodes;
    [approximate(points, true)] has one point less (none when there is no
    node) and is the former without its last point. *)
Theorem approximate_skipLast (h : Store D) (this : ref) (points : R) :
  let nodes := sampleBezier (getPlain h this) points in
  let all := approximate _ point sampleBezier this points false h in
  let most := approximate _ point sampleBezier this points true h in
  all = map point nodes
  /\ length most = length nodes - 1
  /\ (nodes = [] -> most = [])
  /\ (forall front last, nodes = front ++ [last] ->
        most = map point front /\ all = most ++ [point last]).
Proof.
  cbv zeta. unfold approximate. rewrite slice_drops_last.
  split; [done|]. split; [|split].
  - rewrite length_map, length_take. lia.
  - now intros ->.
  - intros front last ->. rewrite length_app. cbn [length].
    replace (length front + 1 - 1) with (length front) by lia.
    rewrite take_app_length, map_app. done.
Qed.
End ApproximationProperties.

(** ** The further results on concrete stores *)

Module Run2.
Import Scenario Scenario2.

Lemma fresh_pair_unlinked (r : ref) :
  next (fresh_pair r) = None /\ previous (fresh_pair r) = None.
Proof. destruct r as [|[|r]]; split; reflexivity. Qed.

Lemma fresh_pair_consistent : consistent fresh_pair.
Proof.
  intros a b.
  destruct (fresh_pair_unlinked a) as [-> _].
  destruct (fresh_pair_unlinked b) as [_ ->].
  split; discriminate.
Qed.

Lemma linked_pair_consistent : consistent linked_pair.
Proof.
  intros a b.
  destruct a as [|[|a]], b as [|[|b]]; run_store;
    split; intros Heq; first [discriminate Heq | reflexivity].
Qed.

Lemma linked_pair_coincident : coincident linked_pair.
Proof.
  intros a b.
  destruct a as [|[|a]], b as [|[|b]]; run_store;
    intros Heq; first [discriminate Heq | reflexivity].
Qed.

Lemma setPreviousSegment_replaces_witness :
  getPreviousSegment linked_pair B = Some A
  /\ A <> C
  /\ (let h' := setPreviousSegment B (Some C) None None linked_pair in
      getNextSegment h' A = None /\ getNextSegment h' C = Some B).
Proof.
  split; [reflexivity|]. split; [discriminate|].
  apply (setPreviousSegment_replaces linked_pair A B C);
    [reflexivity|discriminate].
Defined.

Lemma new_neighbour_keeps_old_partner_witness :
  linked linked_pair A B
  /\ getNextSegment linked_pair C <> Some B
  /\ (let h' := setNextSegment C (Some B) None None linked_pair in
      getPreviousSegment h' B = Some C /\ getNextSegment h' A = Some B
      /\ A <> C).
Proof.
  assert (Hlinked : linked linked_pair A B) by (split; reflexivity).
  assert (Hnext : getNextSegment linked_pair C <> Some B) by discriminate.
  split; [exact Hlinked|]. split; [exact Hnext|].
  exact (proj1 (new_neighbour_keeps_old_partner linked_pair C A B Hlinked)
           Hnext).
Defined.

Lemma link_keeps_consistency_witness :
  consistent fresh_pair
  /\ getPreviousSegment fresh_pair B = None
  /\ consistent (setNextSegment A (Some B) None None fresh_pair).
Proof.
  split; [exact fresh_pair_consistent|]. split; [reflexivity|].
  exact (proj1 (link_keeps_consistency fresh_pair A B None
                  fresh_pair_consistent) eq_refl).
Defined.

Lemma link_touches_three_objects_witness :
  A <> C
  /\ setNextSegment A (Some B) None None fresh_pair C = fresh_pair C.
Proof.
  assert (HAC : A <> C) by discriminate.
  assert (HBC : Some B <> Some C) by discriminate.
  assert (Hnext : getNextSegment fresh_pair A <> Some C) by discriminate.
  split; [exact HAC|].
  exact (proj1 (proj2 (link_touches_three_objects A (Some B) None None
                         fresh_pair C HAC) HBC) Hnext).
Defined.

Lemma setPreviousSegment_joins_witness :
  getPreviousSegment fresh_pair B <> Some A
  /\ (let h' := setPreviousSegment B (Some A) None None fresh_pair in
      getStart h' B = getEnd h' A /\ getEnd h' A = getEnd fresh_pair A).
Proof.
  assert (Hprev : getPreviousSegment fresh_pair B <> Some A) by discriminate.
  split; [exact Hprev|].
  exact (setPreviousSegment_joins fresh_pair A B None None Hprev).
Defined.

Lemma setNextSegment_moves_start_witness :
  A <> B
  /\ getNextSegment fresh_pair A <> Some B
  /\ (let h' := setNextSegment A (Some B) None None fresh_pair in
      getStart h' A = getStart fresh_pair B
      /\ getEnd h' A = getEnd fresh_pair A).
Proof.
  assert (HAB : A <> B) by discriminate.
  assert (Hnext : getNextSegment fresh_pair A <> Some B) by discriminate.
  split; [exact HAB|]. split; [exact Hnext|].
  destruct (setNextSegment_moves_start fresh_pair A B None HAB Hnext)
    as (Hstart & Hend & _).
  split; [exact Hstart | exact Hend].
Defined.

Lemma anchor_setters_keep_chain_witness :
  consistent linked_pair
  /\ coincident linked_pair
  /\ coincident (setStart B (vec 7 7) None linked_pair)
  /\ coincident (setEnd A (vec 7 7) None linked_pair).
Proof.
  split; [exact linked_pair_consistent|].
  split; [exact linked_pair_coincident|].
  split.
  - exact (proj2 (proj1 (anchor_setters_keep_chain B (vec 7 7) linked_pair
             linked_pair_consistent linked_pair_coincident))).
  - exact (proj2 (proj2 (anchor_setters_keep_chain A (vec 7 7) linked_pair
             linked_pair_consistent linked_pair_coincident))).
Defined.

Lemma move_opens_joint_witness :
  A <> B
  /\ linked linked_pair A B
  /\ vec 7 7 <> getEnd linked_pair A
  /\ (let h' := moveStart B (vec 7 7) linked_pair in
      linked h' A B /\ getStart h' B = vec 7 7
      /\ getEnd h' A = getEnd linked_pair A
      /\ getEnd h' A <> getStart h' B).
Proof.
  assert (HAB : A <> B) by discriminate.
  assert (Hlinked : linked linked_pair A B) by (split; reflexivity).
  assert (Hv : vec 7 7 <> getEnd linked_pair A).
  { change (getEnd linked_pair A) with (vec 1 0). apply vec2_neq_x. lra. }
  split; [exact HAB|]. split; [exact Hlinked|]. split; [exact Hv|].
  exact (proj1 (move_opens_joint B A (vec 7 7) linked_pair HAB) Hlinked Hv).
Defined.

Lemma link_then_unlink_restores_links_witness :
  getNextSegment fresh_pair A = None
  /\ getPreviousSegment fresh_pair B = None
  /\ (let h' := setNextSegment A None None None
                  (setNextSegment A (Some B) None None fresh_pair) in
      forall x, getNextSegment h' x = getNextSegment fresh_pair x
                /\ getPreviousSegment h' x = getPreviousSegment fresh_pair x).
Proof.
  split; [reflexivity|]. split; [reflexivity|].
  exact (proj1 (link_then_unlink_restores_links fresh_pair A B None None
                  eq_refl eq_refl)).
Defined.

End Run2.


(** ** The anchor methods on binary64 numbers *)

Module Run64.
Import Scenario64.



End Run64.
